(** * skyeye: the transmission parser, altitude stacks and coalitions

    A shallow embedding of [pkg/parser/parser.go], [pkg/brevity/altitude.go]
    and of the coalition predicate exercised by [TestIsSpectator], followed
    by the properties the specification states about them.

    Conventions of the embedding.
    - A Go [string] is the sequence of its runes ([gostring]); a rune is its
      code point, a [Z].  Ranging over a string, [strings.HasSuffix],
      [strings.TrimSuffix] and [bufio.ScanWords] agree with their byte-level
      definitions on valid UTF-8, which is the domain of the model.
    - A [bufio.Scanner] splitting with [bufio.ScanWords] is the token it last
      scanned together with the tokens still to come.  The scanner gives up
      on a token of 64 KiB or more; the statements that depend on the
      tokens being delivered carry [scannable] as a hypothesis.
    - [unit.Length] is a [float64] count of metres: its values and
      operations are the binary64 numbers and operations of the kernel
      ([PrimFloat]), so that NaN, the infinities, the signed zeros and the
      rounding of every operation are those of the program.
    - Calls into libraries whose effect on a text is not decided by this
      repository ([strings.ToLower], [numwords.ParseString], the sanitizer's
      regular expression) and the per-request parsers whose bodies are not in
      the sources are fields of the classes [Library] and [RequestParsers]. *)

From Stdlib Require Import ZArith QArith Lia Lqa String Ascii DecimalString.
From Corelib Require Import PrimFloat SpecFloat FloatOps.
From stdpp Require Import base option list sorting gmap.

Local Open Scope Z_scope.

(** ** Go strings *)

Abbreviation rune := Z (only parsing).
Abbreviation gostring := (list rune) (only parsing).

(** A string literal of the source. *)
Definition go (s : string) : gostring :=
  (fun c => Z.of_N (N_of_ascii c)) <$> list_ascii_of_string s.

Definition streq (a b : gostring) : bool := bool_decide (a = b).

(** [strings.HasSuffix]: [len(s) >= len(suffix) && s[len(s)-len(suffix):] == suffix]. *)
Definition HasSuffix (s sfx : gostring) : bool :=
  bool_decide (length sfx ≤ length s)%nat
  && streq (drop (length s - length sfx) s) sfx.

(** [strings.TrimSuffix]. *)
Definition TrimSuffix (s sfx : gostring) : gostring :=
  if HasSuffix s sfx then take (length s - length sfx) s else s.

(** [%d] of [fmt.Sprintf]. *)
Definition fmt_d (d : Z) : gostring := go (NilZero.string_of_int (Z.to_int d)).

(** ** bufio.Scanner over bufio.ScanWords *)

(** [isSpace] of package bufio. *)
Definition isSpace (r : rune) : bool :=
  if r <=? 255 then
    (r =? 32) || (r =? 9) || (r =? 10) || (r =? 11) || (r =? 12) || (r =? 13)
    || (r =? 133) || (r =? 160)
  else if (8192 <=? r) && (r <=? 8202) then true
  else (r =? 5760) || (r =? 8232) || (r =? 8233) || (r =? 8239)
       || (r =? 8287) || (r =? 12288).

(** The tokens [ScanWords] yields: maximal runs of non-space runes.  [cur] is
    the word being read. *)
Fixpoint scanWords (cur : gostring) (s : gostring) : list gostring :=
  match s with
  | [] => match cur with [] => [] | _ => [cur] end
  | r :: s' =>
      if isSpace r then
        match cur with
        | [] => scanWords [] s'
        | _ => cur :: scanWords [] s'
        end
      else scanWords (cur ++ [r]) s'
  end.

Definition words (s : gostring) : list gostring := scanWords [] s.

Record Scanner := mkScanner {
  Text : gostring;            (* the token of the last successful Scan *)
  pending : list gostring     (* the tokens not scanned yet *)
}.

Definition NewScanner (s : gostring) : Scanner := mkScanner [] (words s).

Definition Scan (sc : Scanner) : bool * Scanner :=
  match pending sc with
  | [] => (false, mkScanner [] [])
  | t :: rest => (true, mkScanner t rest)
  end.

(** Control flow of a loop body that may return from the enclosing function. *)
Inductive flow (A : Type) :=
| Next (a : A)
| Return (a : A).
Arguments Next {A} a.
Arguments Return {A} a.

Module parser.

(** *** The digit table *)

Definition numberWordsEntries : list (string * Z) :=
  [ ("0", 0); ("zero", 0); ("o", 0); ("oh", 0);
    ("1", 1); ("one", 1); ("wun", 1);
    ("2", 2); ("two", 2);
    ("3", 3); ("three", 3); ("tree", 3);
    ("4", 4); ("four", 4); ("fower", 4);
    ("5", 5); ("five", 5); ("fife", 5);
    ("6", 6); ("six", 6);
    ("7", 7); ("seven", 7);
    ("8", 8); ("eight", 8); ("ait", 8);
    ("9", 9); ("nine", 9); ("niner", 9) ]%string.

Definition numberWordsList : list (gostring * Z) :=
  (fun e => (go e.1, e.2)) <$> numberWordsEntries.

Definition numberWords : gmap gostring Z := list_to_map numberWordsList.
Global Arguments numberWords : simpl never.

Definition appendNumber (callsign number : gostring) : gostring * bool :=
  match numberWords !! number with
  | Some d => (callsign ++ go " " ++ fmt_d d, true)
  | None => (callsign, false)
  end.

(** *** parseCallsign *)

(** The named results [(callsign, isValid)]. *)
Definition csResult : Type := gostring * bool.

(** [for _, char := range nextToken]. *)
Fixpoint charLoop (st : csResult) (chars : list rune) : flow csResult :=
  match chars with
  | [] => Next st
  | char :: chars' =>
      let '(s, ok) := appendNumber st.1 [char] in
      if ok then charLoop (s, true) chars' else Return st
  end.

(** [for scanner.Scan()]. *)
Fixpoint tokenLoop (st : csResult) (toks : list gostring) : csResult :=
  match toks with
  | [] => st
  | nextToken :: toks' =>
      let '(callsign, ok) := appendNumber st.1 nextToken in
      if ok then tokenLoop (callsign, true) toks'
      else
        match charLoop (callsign, st.2) nextToken with
        | Next st' => tokenLoop st' toks'
        | Return st' => st'
        end
  end.

(** The function on the scanner's tokens. *)
Definition parseCallsignTokens (toks : list gostring) : csResult :=
  match toks with
  | [] => ([], false)
  | firstToken :: toks' =>
      if streq firstToken [] then ([], false)
      else
        let '(callsign, ok) := appendNumber [] firstToken in
        let st := if negb ok then (firstToken, false) else (callsign, true) in
        tokenLoop st toks'
  end.

Definition parseCallsign (tx : gostring) : csResult :=
  parseCallsignTokens (words tx).

(** *** parseCallsign with the digits it appends

    The same function carrying, as ghost state, the list of the digits it
    has appended to the callsign so far: every successful [appendNumber]
    whose result is stored in [callsign] logs its digit. *)

Definition csLog : Type := csResult * list Z.

Fixpoint charLoopLog (st : csLog) (chars : list rune) : flow csLog :=
  match chars with
  | [] => Next st
  | char :: chars' =>
      match numberWords !! [char] with
      | Some d => charLoopLog ((st.1.1 ++ go " " ++ fmt_d d, true), st.2 ++ [d]) chars'
      | None => Return st
      end
  end.

Fixpoint tokenLoopLog (st : csLog) (toks : list gostring) : csLog :=
  match toks with
  | [] => st
  | nextToken :: toks' =>
      match numberWords !! nextToken with
      | Some d => tokenLoopLog ((st.1.1 ++ go " " ++ fmt_d d, true), st.2 ++ [d]) toks'
      | None =>
          match charLoopLog st nextToken with
          | Next st' => tokenLoopLog st' toks'
          | Return st' => st'
          end
      end
  end.

Definition parseCallsignTokensLog (toks : list gostring) : csLog :=
  match toks with
  | [] => (([], false), [])
  | firstToken :: toks' =>
      if streq firstToken [] then (([], false), [])
      else
        match numberWords !! firstToken with
        | Some d => tokenLoopLog (([] ++ go " " ++ fmt_d d, true), [d]) toks'
        | None => tokenLoopLog ((firstToken, false), []) toks'
        end
  end.

(** The digits [parseCallsign tx] appends to the callsign, in order. *)
Definition digitsAppended (tx : gostring) : list Z :=
  (parseCallsignTokensLog (words tx)).2.

(** *** The parser *)

Record parser := mkParser {
  callsign : gostring   (* callsign of the GCI *)
}.

Definition New : parser := mkParser [].

Definition anyface : gostring := go "anyface".

Abbreviation requestWord := gostring (only parsing).

Definition alphaCheck : requestWord := go "alpha check".
Definition bogeyDope : requestWord := go "bogey dope".
Definition declare : requestWord := go "declare".
Definition picture : requestWord := go "picture".
Definition radioCheck : requestWord := go "radio check".
Definition spiked : requestWord := go "spiked".
Definition snaplock : requestWord := go "snaplock".

Definition requestWords : list requestWord :=
  [alphaCheck; bogeyDope; declare; picture; radioCheck; spiked; snaplock].

Definition parseWakeWord (p : parser) (scanner : Scanner)
  : gostring * bool * Scanner :=
  let '(ok, scanner) := Scan scanner in
  if negb ok then ([], false, scanner)
  else
    let firstSegment := Text scanner in
    if negb (streq firstSegment (callsign p) || streq firstSegment anyface)
    then ([], false, scanner)
    else (firstSegment, true, scanner).

(** The library calls of [sanitize]. *)
Class Library := {
  strings_ToLower : gostring -> gostring;
  numwords_ParseString : gostring -> gostring;
  (* [sanitizerRex.ReplaceAllString(src, repl)] for the expression [[\p{P}]+] *)
  sanitizerRex_ReplaceAllString : gostring -> gostring -> gostring
}.

Definition sanitize `{Library} (p : parser) (s : gostring) : gostring :=
  let s := strings_ToLower s in
  let s := numwords_ParseString s in
  let s := sanitizerRex_ReplaceAllString s (go " ") in
  s.

(** The value behind the [any] that [Parse] returns.  The request structs
    are not declared in the sources: the two simple requests are built by
    [Parse] from the callsign alone, the bearing-report request carries a
    callsign and a bearing (in whole degrees), and [other] stands for the
    structs of the remaining per-request parsers. *)
Inductive any (other : Type) :=
| alphaCheckRequest (callsign : gostring)
| radioCheckRequest (callsign : gostring)
| spikedRequest (callsign : gostring) (bearing : Z)
| otherRequest (r : other).
Arguments alphaCheckRequest {other} callsign.
Arguments radioCheckRequest {other} callsign.
Arguments spikedRequest {other} callsign bearing.
Arguments otherRequest {other} r.

(** The per-request parsers [Parse] dispatches to; none of their bodies is
    in the sources. *)
Class RequestParsers := {
  other : Type;
  parseBogeyDope : parser -> gostring -> Scanner -> option (any other) * bool;
  parseDeclare : parser -> gostring -> Scanner -> option (any other) * bool;
  parsePicture : parser -> gostring -> Scanner -> option (any other) * bool;
  parseSpiked : parser -> gostring -> Scanner -> option (any other) * bool;
  parseSnaplock : parser -> gostring -> Scanner -> option (any other) * bool
}.

(** [for _, word := range requestWords()]: the first word that is a suffix
    of the segment, at which the loop body breaks or returns. *)
Fixpoint firstRequestWord (segment : gostring) (ws : list requestWord)
  : option requestWord :=
  match ws with
  | [] => None
  | word :: ws' =>
      if HasSuffix segment word then Some word
      else firstRequestWord segment ws'
  end.

(** [for callsign == ""]: entered with an empty callsign; [None] is
    [return nil, false], [Some] is the state at the loop's exit.  [toks] are
    the scanner's pending tokens. *)
Fixpoint triggerLoop (segment : gostring) (rWord : requestWord)
    (toks : list gostring) : option (gostring * requestWord * Scanner) :=
  match toks with
  | [] => None
  | t :: rest =>
      let segment := segment ++ go " " ++ t in
      match firstRequestWord segment requestWords with
      | Some word =>
          let '(callsign, ok) := parseCallsign (TrimSuffix segment word) in
          if negb ok then None
          else
            (* _ = scanner.Scan() *)
            match rest with
            | [] =>
                if streq callsign [] then triggerLoop segment word rest
                else Some (callsign, word, mkScanner [] [])
            | x :: post =>
                if streq callsign [] then triggerLoop segment word post
                else Some (callsign, word, mkScanner x post)
            end
      | None => triggerLoop segment rWord rest
      end
  end.

(** [switch rWord]. *)
Definition dispatch `{RequestParsers} (p : parser) (rWord : requestWord)
    (callsign : gostring) (scanner : Scanner) : option (any other) * bool :=
  if streq rWord alphaCheck then (Some (alphaCheckRequest callsign), true)
  else if streq rWord bogeyDope then parseBogeyDope p callsign scanner
  else if streq rWord declare then parseDeclare p callsign scanner
  else if streq rWord picture then parsePicture p callsign scanner
  else if streq rWord radioCheck then (Some (radioCheckRequest callsign), true)
  else if streq rWord spiked then parseSpiked p callsign scanner
  else if streq rWord snaplock then parseSnaplock p callsign scanner
  else (None, false).

Definition Parse `{Library} `{RequestParsers} (p : parser) (tx : gostring)
  : option (any other) * bool :=
  let tx := sanitize p tx in
  let scanner := NewScanner tx in
  let '(_, ok, scanner) := parseWakeWord p scanner in
  if negb ok then (None, false)
  else
    match triggerLoop [] [] (pending scanner) with
    | None => (None, false)
    | Some (callsign, rWord, scanner) => dispatch p rWord callsign scanner
    end.

(** Modelled from the spec: [parseSpiked], the per-request parser of the
    bearing-report request, is called by [Parse] but its body is not in the
    sources.  The specification (sections 4.5, 7 and 8): it "consumes the
    remainder of the stream as three single-digit tokens and composes them
    into a three-digit integer interpreted as degrees in [0, 360)", a
    bearing "not expressed as exactly three digit tokens" is a failure, and
    "SPIKED 2-7-0" yields 270 degrees.  When it is called, [Parse] has
    already scanned the first token after the trigger, which is the
    scanner's current token: the bearing starts there, two more tokens are
    scanned, and nothing may follow.  Digits are decoded with the digit
    table, and a composed value outside [0, 360) is not a bearing. *)
Definition parseSpiked_spec {other : Type} (p : parser) (callsign : gostring)
    (scanner : Scanner) : option (any other) * bool :=
  match pending scanner with
  | [b; c] =>
      match numberWords !! Text scanner, numberWords !! b,
            numberWords !! c with
      | Some x, Some y, Some z =>
          let bearing := 100 * x + 10 * y + z in
          if bearing <? 360
          then (Some (spikedRequest callsign bearing), true)
          else (None, false)
      | _, _, _ => (None, false)
      end
  | _ => (None, false)
  end.

End parser.

Module brevity.

#[local] Set Warnings "-inexact-float".
Local Open Scope float_scope.

(** *** unit.Length

    The typed constants of package unit, each rounded to binary64 as the
    compiler rounds a typed constant: [Inch = Meter * 0.0254] and
    [Foot = Inch * 12], which is 0.30479999999999996. *)

Abbreviation Length := float (only parsing).

Definition Meter : Length := 1.
Definition Inch : Length := Meter * 0.0254.
Definition Foot : Length := Inch * 12.

(** [Length.Feet]: [float64(l / Foot)]. *)
Definition Feet (l : Length) : float := l / Foot.

(** [math.Round]: the nearest integer, halves away from zero, computed on
    the exact value [m * 2^e] of the argument; zeros, infinities, NaN and
    the numbers without a fractional part come back unchanged, and a result
    that is zero keeps the sign of the argument. *)
Definition math_Round (x : float) : float :=
  match Prim2SF x with
  | S754_finite s m e =>
      if (0 <=? e)%Z then x
      else
        let d := (2 ^ (- e))%Z in
        let q := (Z.pos m / d)%Z in
        let r := (Z.pos m mod d)%Z in
        let n := if (d <=? 2 * r)%Z then (q + 1)%Z else q in
        SF2Prim match n with
                | Z.pos p => S754_finite s p 0
                | _ => S754_zero s
                end
  | _ => x
  end.

(** [unit.Length(math.Round(alt.Feet()/1000)) * 1000 * unit.Foot]. *)
Definition roundToBand (alt : Length) : Length :=
  math_Round (Feet alt / 1000) * 1000 * Foot.

(** *** slices.SortFunc

    The comparison function of the source.  With a NaN on either side both
    tests fail and it answers 0. *)

Definition cmpLength (i j : Length) : Z :=
  if i <? j then (-1)%Z
  else if j <? i then 1%Z
  else 0%Z.

(** The inner loop of [insertionSortCmpFunc] for the element [x = data[i]]:
    [x] is swapped with its predecessor as long as it compares less.  [rpre]
    is [data[:i]] read from right to left, and so is the result. *)
Fixpoint sink {A : Type} (cmp : A -> A -> Z) (x : A) (rpre : list A)
  : list A :=
  match rpre with
  | [] => [x]
  | y :: rest =>
      if (cmp x y <? 0)%Z then y :: sink cmp x rest else x :: y :: rest
  end.

(** [insertionSortCmpFunc(data, 0, len(data), cmp)]. *)
Definition insertionSortCmpFunc {A : Type} (data : list A)
    (cmp : A -> A -> Z) : list A :=
  reverse (foldl (fun rpre x => sink cmp x rpre) [] data).

(** [slices.SortFunc] sorts the slice in place.  It is this insertion sort
    on a slice of at most 12 elements; a longer slice goes through the
    other phases of pattern-defeating quicksort, which also only swap
    elements and, when [cmp] is a strict weak ordering, leave the slice in
    the same order up to elements that compare equal. *)
Definition slices_SortFunc {A : Type} (x : list A) (cmp : A -> A -> Z)
  : list A :=
  insertionSortCmpFunc x cmp.

(** *** Stacks *)

Record Stack := mkStack {
  Altitude : Length;
  Count : Z
}.

(** [for i, alt := range a { a[i] = ... }], from index [i] on. *)
Fixpoint roundLoop (i : nat) (n : nat) (a : list Length) : list Length :=
  match n with
  | O => a
  | S n' =>
      match a !! i with
      | Some alt => roundLoop (S i) n' (<[i := roundToBand alt]> a)
      | None => a
      end
  end.

(** The body of the second loop, for the element [alt = a[i]]. *)
Definition stackStep (alt : Length) (stacks : list Stack) : list Stack :=
  if (length stacks =? 0)%nat then stacks ++ [mkStack alt 1]
  else
    let j := (length stacks - 1)%nat in
    match stacks !! j with
    | Some top =>
        let highest := Altitude top in
        if alt <=? highest - 9900 * Foot
        then stacks ++ [mkStack alt 1]
        else <[j := mkStack (Altitude top) (Count top + 1)]> stacks
    | None => stacks
    end.

(** [for i := len(a) - 1; i >= 0; i--], with [n = i + 1]. *)
Fixpoint stackLoop (a : list Length) (n : nat) (stacks : list Stack)
  : list Stack :=
  match n with
  | O => stacks
  | S i =>
      match a !! i with
      | Some alt => stackLoop a i (stackStep alt stacks)
      | None => stacks
      end
  end.

(** [Stacks] on the slice [a]: the stacks it returns, and the contents of
    the slice (the caller's backing array) when it returns. *)
Definition Stacks_run (a : list Length) : list Stack * list Length :=
  let a := roundLoop 0 (length a) a in
  let a := slices_SortFunc a cmpLength in
  (stackLoop a (length a) [], a).

Definition Stacks (a : list Length) : list Stack := (Stacks_run a).1.

(** A length given in feet: [n * unit.Foot]. *)
Definition feet (n : float) : Length := n * Foot.

End brevity.

Module types.

Abbreviation Coalition := Z (only parsing).

(** Modelled from the spec: the two coalition constants are used by
    [TestIsSpectator] but declared nowhere in the sources, and the
    specification gives them no value ("exactly two reserved values denote
    the two opposing teams"); they are the fields of this class. *)
Class Coalitions := {
  CoalitionBlue : Coalition;
  CoalitionRed : Coalition
}.

(** Modelled from the spec: [IsSpectator] is not in the sources, only its
    test is.  The specification: "IsNonParticipant(coalitionValue): true
    iff the value is not one of the two reserved team constants". *)
Definition IsSpectator `{Coalitions} (c : Coalition) : bool :=
  negb ((c =? CoalitionBlue) || (c =? CoalitionRed)).

(** The assertions of [TestIsSpectator]. *)
Definition TestIsSpectator `{Coalitions} : bool :=
  IsSpectator 0
  && negb (IsSpectator CoalitionBlue)
  && negb (IsSpectator CoalitionRed)
  && forallb (fun i => IsSpectator (Z.of_nat i)) (seq 3 (1024 - 3)).

End types.


(** ** Vocabulary of the statements *)

Module stacks_spec.
Import brevity.
Local Open Scope float_scope.

(** The sum of the counts of a sequence of stacks. *)
Definition sumCounts (stacks : list Stack) : Z :=
  foldr (fun s acc => (Count s + acc)%Z) 0%Z stacks.

(** Every altitude passed the threshold test of the second loop against the
    one before it. *)
Definition chain (alts : list Length) : Prop :=
  forall i x y, alts !! i = Some x -> alts !! S i = Some y ->
    (y <=? x - 9900 * Foot) = true.

(** What the second loop maintains, [seen] being the altitudes consumed. *)
Record stacksInv (seen : list Length) (stacks : list Stack) : Prop := {
  inv_sum : sumCounts stacks = Z.of_nat (length seen);
  inv_mem : Forall (fun s => Altitude s ∈ seen) stacks;
  inv_chain : chain (Altitude <$> stacks);
  inv_nonempty : seen <> [] -> stacks <> []
}.







(** The comparison of the sort is a strict weak ordering on the elements of
    [l], as [slices.SortFunc] requires: less-than is asymmetric, and not
    being less is transitive.  It is whenever no element is NaN. *)
Definition strictWeakOn (l : list Length) : Prop :=
  Forall (fun x => Forall (fun y =>
    ((x <? y) = true -> (y <? x) = false)
    /\ Forall (fun z =>
         (x <? y) = false -> (y <? z) = false -> (x <? z) = false) l) l) l.

#[global] Instance strictWeakOn_dec l : Decision (strictWeakOn l).
Proof. unfold strictWeakOn. apply _. Defined.




End stacks_spec.

Module parser_spec.
Import parser.

(** The value of [segment] in [Parse] once the tokens [toks] have been
    appended to [seg]. *)
Definition joinSegment (seg : gostring) (toks : list gostring) : gostring :=
  foldl (fun seg t => seg ++ go " " ++ t) seg toks.

(** The Trigger Scanner recognizes [word] on reading the last of [toks], and
    no request word before. *)
Definition recognizes (toks : list gostring) (word : requestWord) : Prop :=
  toks <> []
  /\ firstRequestWord (joinSegment [] toks) requestWords = Some word
  /\ forall k, (0 < k < length toks)%nat ->
       firstRequestWord (joinSegment [] (take k toks)) requestWords = None.

(** Every character of the token decodes via the digit table. *)
Definition glued (tok : gostring) : Prop :=
  Forall (fun c => is_Some (numberWords !! [c])) tok.

(** A token the callsign loop gets past: a digit word, or glued digits. *)
Definition decodable (tok : gostring) : Prop :=
  is_Some (numberWords !! tok) \/ glued tok.

#[global] Instance glued_dec tok : Decision (glued tok).
Proof. unfold glued. apply _. Defined.

#[global] Instance decodable_dec tok : Decision (decodable tok).
Proof. unfold decodable. apply _. Defined.

(** The digits of a list, each preceded by a space, as appended to a
    callsign. *)
Definition spacedDigits (ds : list Z) : gostring :=
  mjoin ((fun d => go " " ++ fmt_d d) <$> ds).

(** The logging parser: the flag tells whether the log is empty, and the
    callsign is its initial value followed by the logged digits. *)
Definition logInv (base : gostring) (st : csLog) : Prop :=
  (st.1.2 = true <-> st.2 <> []) /\ st.1.1 = base ++ spacedDigits st.2.

(** The decoded digits of the characters of a token. *)
Definition charDigits (tok : gostring) : list Z :=
  omap (fun c => numberWords !! [c]) tok.

(** A stand-in for the library calls of [sanitize] on ASCII text without
    number words, to run the examples: upper-case ASCII letters are
    lowered, and each run of ASCII punctuation becomes one space. *)
Definition asciiToLower (s : gostring) : gostring :=
  (fun r => if (65 <=? r) && (r <=? 90) then r + 32 else r) <$> s.

(** ASCII punctuation, the quotation mark (34) first. *)
Definition asciiPunct (r : rune) : bool :=
  bool_decide (r ∈ 34 :: go "!#%&'()*,-./:;?@[\]_{}").

Fixpoint replacePunct (inRun : bool) (s repl : gostring) : gostring :=
  match s with
  | [] => []
  | r :: s' =>
      if asciiPunct r then
        (if inRun then [] else repl) ++ replacePunct true s' repl
      else r :: replacePunct false s' repl
  end.

Definition asciiLibrary : Library := {|
  strings_ToLower := asciiToLower;
  numwords_ParseString := fun s => s;
  sanitizerRex_ReplaceAllString := replacePunct false
|}.

(** Per-request parsers to run the examples: the bearing-report parser of
    the specification; the four parsers whose grammar the specification
    leaves out accept nothing. *)
Definition specParsers : RequestParsers := {|
  other := Empty_set;
  parseBogeyDope := fun _ _ _ => (None, false);
  parseDeclare := fun _ _ _ => (None, false);
  parsePicture := fun _ _ _ => (None, false);
  parseSpiked := parseSpiked_spec;
  parseSnaplock := fun _ _ _ => (None, false)
|}.

(** No rune of the token is white space. *)
Definition nospace (tok : gostring) : Prop :=
  Forall (fun r => isSpace r = false) tok.

(** Tokens written one after the other, each after a space. *)
Definition spacedTokens (toks : list gostring) : gostring :=
  mjoin ((fun t => go " " ++ t) <$> toks).

(** A result that is nil exactly when its flag is false. *)
Definition nilIffNotOk {A : Type} (r : option A * bool) : Prop :=
  r.2 = true <-> is_Some r.1.

(** The length in bytes of a token: the UTF-8 encoding of its runes. *)
Definition utf8Len (r : rune) : Z :=
  if r <? 128 then 1 else if r <? 2048 then 2 else if r <? 65536 then 3
  else 4.

Definition tokenBytes (tok : gostring) : Z :=
  foldr (fun r n => utf8Len r + n) 0 tok.

(** [bufio.MaxScanTokenSize]. *)
Definition MaxScanTokenSize : Z := 64 * 1024.

(** The text is within the reach of a [bufio.Scanner]: each of its tokens
    is shorter than [MaxScanTokenSize] bytes.  On a longer token [Scan]
    gives up ([ErrTooLong]) and the tokens listed by [words] from there on
    are not delivered. *)
Definition scannable (s : gostring) : Prop :=
  Forall (fun tok => tokenBytes tok < MaxScanTokenSize) (words s).

#[global] Instance scannable_dec s : Decision (scannable s).
Proof. unfold scannable. apply _. Defined.

End parser_spec.

(** * Properties *)

(** ** Altitude stacks *)

Section stacks_facts.
Import brevity stacks_spec.
Local Open Scope float_scope.

Lemma roundLoop_spec n : forall i (a : list Length),
  (i + n)%nat = length a ->
  roundLoop i n a = take i a ++ (roundToBand <$> drop i a).
Proof.
  induction n as [|n IH]; intros i a Hlen; simpl.
  - rewrite drop_ge by lia. rewrite take_ge by lia. by rewrite app_nil_r.
  - destruct (lookup_lt_is_Some_2 a i) as [alt Halt]; [lia|].
    rewrite Halt, IH by (rewrite length_insert; lia).
    rewrite (take_S_r _ _ (roundToBand alt))
      by (apply list_lookup_insert_eq; lia).
    rewrite take_insert_ge, drop_insert_lt by lia.
    rewrite (drop_S a alt i Halt), fmap_cons, <- app_assoc. done.
Qed.

Lemma roundLoop_fmap (a : list Length) :
  roundLoop 0 (length a) a = roundToBand <$> a.
Proof. by rewrite roundLoop_spec. Qed.

Lemma stackLoop_foldl (a : list Length) n : forall stacks,
  (n <= length a)%nat ->
  stackLoop a n stacks
  = foldl (fun st alt => stackStep alt st) stacks (reverse (take n a)).
Proof.
  induction n as [|n IH]; intros stacks Hn; simpl.
  - done.
  - destruct (lookup_lt_is_Some_2 a n) as [alt Halt]; [lia|].
    rewrite Halt, (take_S_r _ _ _ Halt), reverse_snoc. simpl.
    apply IH. lia.
Qed.

(** The sort only moves elements. *)
Lemma sink_perm {A} (cmp : A -> A -> Z) x rpre :
  sink cmp x rpre ≡ₚ x :: rpre.
Proof.
  induction rpre as [|y rest IH]; simpl; [done|].
  destruct (cmp x y <? 0)%Z; [|done].
  rewrite IH. apply Permutation_swap.
Qed.

Lemma foldl_sink_perm {A} (cmp : A -> A -> Z) data : forall rpre,
  foldl (fun rpre x => sink cmp x rpre) rpre data ≡ₚ data ++ rpre.
Proof.
  induction data as [|x data IH]; intros rpre; simpl; [done|].
  rewrite IH, sink_perm. by rewrite Permutation_middle.
Qed.

Lemma slices_SortFunc_perm {A} (cmp : A -> A -> Z) a :
  slices_SortFunc a cmp ≡ₚ a.
Proof.
  unfold slices_SortFunc, insertionSortCmpFunc.
  by rewrite reverse_Permutation, foldl_sink_perm, app_nil_r.
Qed.

Lemma cmpLength_neg i j : (cmpLength i j <? 0)%Z = (i <? j).
Proof. unfold cmpLength. by destruct (i <? j), (j <? i). Qed.

Lemma strictWeakOn_asym l x y :
  strictWeakOn l -> x ∈ l -> y ∈ l -> (x <? y) = true -> (y <? x) = false.
Proof.
  unfold strictWeakOn. rewrite Forall_forall. intros H Hx Hy.
  specialize (H x Hx). rewrite Forall_forall in H.
  by destruct (H y Hy).
Qed.

Lemma strictWeakOn_trans l x y z :
  strictWeakOn l -> x ∈ l -> y ∈ l -> z ∈ l ->
  (x <? y) = false -> (y <? z) = false -> (x <? z) = false.
Proof.
  unfold strictWeakOn. rewrite Forall_forall. intros H Hx Hy Hz.
  specialize (H x Hx). rewrite Forall_forall in H.
  destruct (H y Hy) as [_ H']. rewrite Forall_forall in H'.
  by apply H'.
Qed.

(** Under a strict weak ordering the prefix stays in order: read from right
    to left, no element is less than a later one. *)
Lemma sink_sorted l x rpre :
  strictWeakOn l -> x ∈ l -> Forall (fun y => y ∈ l) rpre ->
  StronglySorted (fun u v => (u <? v) = false) rpre ->
  StronglySorted (fun u v => (u <? v) = false) (sink cmpLength x rpre).
Proof.
  intros Hswo Hx. induction rpre as [|y rest IH]; intros Hin Hs; simpl.
  - repeat constructor.
  - apply Forall_cons in Hin as [Hy Hin].
    apply StronglySorted_inv in Hs as [Hs Hall].
    rewrite cmpLength_neg. destruct (x <? y) eqn:Hxy.
    + constructor; [by apply IH|].
      rewrite sink_perm. constructor; [|done].
      by apply (strictWeakOn_asym l x y).
    + constructor; [by constructor|]. constructor; [done|].
      rewrite Forall_forall in Hall, Hin. apply Forall_forall. intros z Hz.
      apply (strictWeakOn_trans l x y z); auto.
Qed.

Lemma foldl_sink_sorted l data : forall rpre,
  strictWeakOn l -> Forall (fun y => y ∈ l) data ->
  Forall (fun y => y ∈ l) rpre ->
  StronglySorted (fun u v => (u <? v) = false) rpre ->
  StronglySorted (fun u v => (u <? v) = false)
    (foldl (fun rpre x => sink cmpLength x rpre) rpre data).
Proof.
  induction data as [|x data IH]; intros rpre Hswo Hd Hin Hs; simpl; [done|].
  apply Forall_cons in Hd as [Hx Hd].
  apply IH; [done|done| |by apply (sink_sorted l)].
  rewrite sink_perm. by constructor.
Qed.

Lemma StronglySorted_reverse {A} (R : A -> A -> Prop) l :
  StronglySorted R l -> StronglySorted (fun x y => R y x) (reverse l).
Proof.
  induction 1 as [|x l _ IH Hall]; [constructor|].
  rewrite reverse_cons. apply StronglySorted_app_2; [|done|repeat constructor].
  intros y z Hy Hz. apply list_elem_of_singleton in Hz. subst z.
  rewrite elem_of_reverse in Hy. rewrite Forall_forall in Hall.
  by apply Hall.
Qed.

Lemma slices_SortFunc_sorted (a : list Length) :
  strictWeakOn a ->
  StronglySorted (fun x y => (y <? x) = false) (slices_SortFunc a cmpLength).
Proof.
  intros Hswo. unfold slices_SortFunc, insertionSortCmpFunc.
  apply (StronglySorted_reverse (fun u v => (u <? v) = false)).
  apply (foldl_sink_sorted a); [done| |constructor|constructor].
  by apply Forall_forall.
Qed.

Lemma strictWeakOn_perm l k : l ≡ₚ k -> strictWeakOn l -> strictWeakOn k.
Proof.
  intros Hp H. unfold strictWeakOn in *.
  rewrite <- Hp. eapply Forall_impl; [exact H|]. intros x Hx. simpl in *.
  rewrite <- Hp. eapply Forall_impl; [exact Hx|]. intros y [Hy1 Hy2]. simpl.
  split; [done|]. by rewrite <- Hp.
Qed.

Lemma stackStep_nil alt : stackStep alt [] = [mkStack alt 1].
Proof. done. Qed.

Lemma stackStep_snoc alt stacks top :
  stackStep alt (stacks ++ [top])
  = if alt <=? Altitude top - 9900 * Foot
    then stacks ++ [top; mkStack alt 1]
    else stacks ++ [mkStack (Altitude top) (Count top + 1)].
Proof.
  unfold stackStep. rewrite length_app. simpl.
  replace (length stacks + 1 =? 0)%nat with false
    by (symmetry; apply Nat.eqb_neq; lia).
  replace (length stacks + 1 - 1)%nat with (length stacks + 0)%nat by lia.
  rewrite lookup_app_r, Nat.add_comm, Nat.sub_diag by lia. simpl.
  destruct (_ <=? _).
  - by rewrite <- app_assoc.
  - rewrite insert_app_r_alt, Nat.sub_diag by lia. done.
Qed.

Lemma sumCounts_app s t : sumCounts (s ++ t) = (sumCounts s + sumCounts t)%Z.
Proof.
  unfold sumCounts. induction s as [|x s IH]; simpl; [done|].
  rewrite IH. lia.
Qed.

Lemma chain_snoc alts x y :
  chain (alts ++ [x]) -> (y <=? x - 9900 * Foot) = true ->
  chain (alts ++ [x; y]).
Proof.
  intros Hc Hxy i u v Hu Hv.
  replace (alts ++ [x; y]) with ((alts ++ [x]) ++ [y]) in Hu, Hv
    by (by rewrite <- app_assoc).
  assert (Hlen : length (alts ++ [x]) = S (length alts))
    by (rewrite length_app; simpl; lia).
  destruct (decide (S i < length (alts ++ [x]))%nat) as [Hlt|Hge].
  - rewrite lookup_app_l in Hu, Hv by lia. eauto.
  - assert (i = length alts).
    { apply lookup_lt_Some in Hv. rewrite length_app in Hv. simpl in Hv. lia. }
    subst i.
    rewrite lookup_app_l in Hu by lia.
    rewrite lookup_app_r in Hu by lia.
    rewrite lookup_app_r in Hv by lia.
    rewrite Nat.sub_diag in Hu. rewrite Hlen, Nat.sub_diag in Hv.
    simpl in Hu, Hv. by simplify_eq.
Qed.

Lemma stacksInv_step seen stacks alt :
  stacksInv seen stacks -> stacksInv (seen ++ [alt]) (stackStep alt stacks).
Proof.
  intros [Hsum Hmem Hch Hne].
  assert (Hmem' : Forall (fun s => Altitude s ∈ seen ++ [alt]) stacks).
  { eapply Forall_impl; [exact Hmem|]. intros s Hs. simpl in *. set_solver. }
  destruct stacks as [|top stacks _] using rev_ind.
  - rewrite stackStep_nil. split.
    + destruct seen; [done|]. by destruct Hne.
    + repeat constructor. simpl. set_solver.
    + intros i x y Hx Hy. by destruct i.
    + done.
  - rewrite stackStep_snoc.
    rewrite sumCounts_app in Hsum. unfold sumCounts at 2 in Hsum.
    simpl in Hsum.
    apply Forall_app in Hmem' as [Hm1 Hm2].
    destruct (alt <=? Altitude top - 9900 * Foot) eqn:Hle.
    + split.
      * rewrite sumCounts_app, length_app. unfold sumCounts at 2. simpl. lia.
      * apply Forall_app. split; [done|].
        apply Forall_cons. split; [by inversion Hm2|].
        repeat constructor. simpl. set_solver.
      * rewrite fmap_app in *. simpl in *. by apply chain_snoc.
      * by destruct stacks.
    + split.
      * rewrite sumCounts_app, length_app. unfold sumCounts at 2. simpl. lia.
      * apply Forall_app. split; [done|].
        repeat constructor. simpl. by inversion Hm2.
      * by rewrite fmap_app in *.
      * by destruct stacks.
Qed.

Lemma stacksInv_foldl l : forall seen stacks,
  stacksInv seen stacks ->
  stacksInv (seen ++ l) (foldl (fun st alt => stackStep alt st) stacks l).
Proof.
  induction l as [|alt l IH]; intros seen stacks Hinv; simpl.
  - by rewrite app_nil_r.
  - replace (seen ++ alt :: l) with ((seen ++ [alt]) ++ l)
      by (by rewrite <- app_assoc).
    by apply IH, stacksInv_step.
Qed.

Lemma Stacks_run_eq (a : list Length) :
  Stacks_run a
  = (foldl (fun st alt => stackStep alt st) []
       (reverse (slices_SortFunc (roundToBand <$> a) cmpLength)),
     slices_SortFunc (roundToBand <$> a) cmpLength).
Proof.
  unfold Stacks_run. rewrite roundLoop_fmap.
  rewrite stackLoop_foldl by lia. by rewrite take_ge by lia.
Qed.

Lemma Stacks_inv (a : list Length) :
  stacksInv (reverse (slices_SortFunc (roundToBand <$> a) cmpLength))
            (Stacks a).
Proof.
  unfold Stacks. rewrite Stacks_run_eq. simpl.
  apply (stacksInv_foldl _ [] []). split; done.
Qed.













(** C7, as stated, fails: called on a slice holding 25000, 24000 and 10000
    feet, [Stacks] leaves it holding 10000, 24000 and 25000 feet. *)
Lemma Stacks_overwrites_input :
  (Stacks_run [feet 25000; feet 24000; feet 10000]).2
  = [feet 10000; feet 24000; feet 25000]
  /\ (Stacks_run [feet 25000; feet 24000; feet 10000]).2
     <> [feet 25000; feet 24000; feet 10000].
Proof.
  split; [by vm_compute|]. intros H.
  apply (f_equal (fun l => match l with
                           | x :: _ => x <? feet 20000
                           | [] => false
                           end)) in H.
  vm_compute in H. discriminate H.
Qed.

(** C7 (amended): [Stacks] keeps no state and takes no copy: it works in
    place.  When it returns, the slice it was given has its length
    unchanged and holds the bands of the input altitudes, rearranged by the
    sort; no element is less than an earlier one whenever the comparison is
    a strict weak ordering on these bands (none of them is NaN); and the
    stacks returned are those the clustering loop builds from that slice. *)
Theorem Stacks_in_place (a : list Length) :
  let a' := (Stacks_run a).2 in
  length a' = length a
  /\ a' ≡ₚ roundToBand <$> a
  /\ (strictWeakOn (roundToBand <$> a) ->
      StronglySorted (fun x y => (y <? x) = false) a')
  /\ Stacks a = stackLoop a' (length a') [].
Proof.
  unfold Stacks. cbn zeta. rewrite Stacks_run_eq. cbn [fst snd].
  pose proof (slices_SortFunc_perm cmpLength (roundToBand <$> a)) as Hp.
  split; [|split; [|split]].
  - by rewrite Hp, length_fmap.
  - done.
  - apply slices_SortFunc_sorted.
  - rewrite stackLoop_foldl by lia. by rewrite take_ge by lia.
Qed.

Lemma Stacks_in_place_witness :
  StronglySorted (fun x y => (y <? x) = false)
    (Stacks_run [feet 25000; feet 24000; feet 10000]).2.
Proof.
  apply (proj1 (proj2 (proj2 (Stacks_in_place
                                [feet 25000; feet 24000; feet 10000])))).
  apply (bool_decide_unpack _). by vm_compute.
Defined.

(** X2 (size of the result): every stack counts at least one altitude,
    there are at most as many stacks as altitudes, and no stack exactly
    when there is no altitude. *)
Theorem Stacks_counts_positive (a : list Length) :
  Forall (fun s => (1 <= Count s)%Z) (Stacks a)
  /\ (length (Stacks a) <= length a)%nat
  /\ (Stacks a = [] <-> a = []).
Proof.
  assert (Hstep : forall alt stacks,
            Forall (fun s => (1 <= Count s)%Z) stacks ->
            Forall (fun s => (1 <= Count s)%Z) (stackStep alt stacks)).
  { intros alt stacks Hall.
    destruct stacks as [|top stacks _] using rev_ind.
    - rewrite stackStep_nil. by repeat constructor.
    - rewrite stackStep_snoc. apply Forall_app in Hall as [Hinit Htop].
      apply Forall_cons in Htop as [Htop _].
      destruct (_ <=? _); apply Forall_app; split; try done.
      + by repeat constructor.
      + repeat constructor. simpl. lia. }
  assert (Hfold : forall l stacks,
            Forall (fun s => (1 <= Count s)%Z) stacks ->
            Forall (fun s => (1 <= Count s)%Z)
              (foldl (fun st alt => stackStep alt st) stacks l)).
  { induction l as [|alt l IH]; intros stacks Hall; simpl; [done|].
    by apply IH, Hstep. }
  assert (Hpos : Forall (fun s => (1 <= Count s)%Z) (Stacks a)).
  { unfold Stacks. rewrite Stacks_run_eq. by apply Hfold. }
  assert (Hlen : forall st, Forall (fun s => (1 <= Count s)%Z) st ->
            (Z.of_nat (length st) <= sumCounts st)%Z).
  { induction 1 as [|s st Hs _ IH]; simpl; [done|].
    unfold sumCounts in *. simpl. lia. }
  destruct (Stacks_inv a) as [Hsum _ _ Hne].
  rewrite length_reverse,
    (slices_SortFunc_perm cmpLength (roundToBand <$> a)), length_fmap in Hsum.
  split; [done|]. split.
  - specialize (Hlen _ Hpos). lia.
  - split.
    + intros Hnil. rewrite Hnil in Hsum. by destruct a.
    + by intros ->.
Qed.

End stacks_facts.

(** ** The callsign parser *)

Section callsign_facts.
Import parser parser_spec.

Lemma numberWords_lookup tok d :
  numberWords !! tok = Some d -> (tok, d) ∈ numberWordsList.
Proof. apply elem_of_list_to_map_2. Qed.

Local Opaque numberWords.

Lemma scanWords_nonempty s : forall cur,
  Forall (fun t => t <> []) (scanWords cur s).
Proof.
  induction s as [|r s IH]; intros cur; simpl.
  - destruct cur; by repeat constructor.
  - destruct (isSpace r); [|apply IH].
    destruct cur; [apply IH|]. constructor; [done|apply IH].
Qed.

Lemma words_nonempty s : Forall (fun t => t <> []) (words s).
Proof. apply scanWords_nonempty. Qed.

(** The plain parser is the logging one without its log. *)
Lemma charLoopLog_erase chars : forall st : csLog,
  charLoop st.1 chars
  = match charLoopLog st chars with
    | Next st' => Next st'.1
    | Return st' => Return st'.1
    end.
Proof.
  induction chars as [|c chars IH]; intros [[cs v] ds]; simpl; [done|].
  unfold appendNumber. simpl. destruct (numberWords !! [c]) as [d|]; [|done].
  apply (IH ((cs ++ go " " ++ fmt_d d, true), ds ++ [d])).
Qed.

Lemma tokenLoopLog_erase toks : forall st : csLog,
  tokenLoop st.1 toks = (tokenLoopLog st toks).1.
Proof.
  induction toks as [|t toks IH]; intros [[cs v] ds]; simpl; [done|].
  unfold appendNumber. simpl. destruct (numberWords !! t) as [d|].
  - apply (IH ((cs ++ go " " ++ fmt_d d, true), ds ++ [d])).
  - pose proof (charLoopLog_erase t ((cs, v), ds)) as H. simpl in H.
    rewrite H. destruct (charLoopLog _ t) as [st'|st']; [apply IH|done].
Qed.

Lemma parseCallsignTokensLog_erase toks :
  parseCallsignTokens toks = (parseCallsignTokensLog toks).1.
Proof.
  destruct toks as [|t toks]; simpl; [done|].
  destruct (streq t []); [done|].
  unfold appendNumber. destruct (numberWords !! t) as [d|]; simpl.
  - apply (tokenLoopLog_erase toks (([] ++ go " " ++ fmt_d d, true), [d])).
  - apply (tokenLoopLog_erase toks ((t, false), [])).
Qed.

Lemma spacedDigits_snoc ds d :
  spacedDigits (ds ++ [d]) = spacedDigits ds ++ go " " ++ fmt_d d.
Proof.
  unfold spacedDigits. rewrite fmap_app, join_app. simpl.
  by rewrite app_nil_r.
Qed.

Lemma logInv_append base (st : csLog) d :
  logInv base st ->
  logInv base ((st.1.1 ++ go " " ++ fmt_d d, true), st.2 ++ [d]).
Proof.
  intros [_ Hcs]. split; simpl.
  - split; [intros _|done]. by destruct (st.2).
  - by rewrite Hcs, spacedDigits_snoc, <- app_assoc.
Qed.

Lemma charLoopLog_inv base chars : forall st,
  logInv base st ->
  match charLoopLog st chars with
  | Next st' | Return st' => logInv base st'
  end.
Proof.
  induction chars as [|c chars IH]; intros st Hinv; simpl; [done|].
  destruct (numberWords !! [c]) as [d|]; [|done].
  by apply IH, logInv_append.
Qed.

Lemma tokenLoopLog_inv base toks : forall st,
  logInv base st -> logInv base (tokenLoopLog st toks).
Proof.
  induction toks as [|t toks IH]; intros st Hinv; simpl; [done|].
  destruct (numberWords !! t) as [d|].
  - by apply IH, logInv_append.
  - pose proof (charLoopLog_inv base t st Hinv) as H.
    destruct (charLoopLog st t) as [st'|st']; [by apply IH|done].
Qed.

Lemma parseCallsignTokensLog_inv toks :
  exists base,
    (base = [] \/ (head toks = Some base /\ numberWords !! base = None))
    /\ logInv base (parseCallsignTokensLog toks).
Proof.
  destruct toks as [|t toks]; simpl.
  { exists []. split; [by left|]. split; simpl; [|done]. split; done. }
  destruct (streq t []).
  { exists []. split; [by left|]. split; simpl; [|done]. split; done. }
  destruct (numberWords !! t) as [d|] eqn:Ht.
  - exists []. split; [by left|]. apply tokenLoopLog_inv.
    split; simpl; [split; done|].
    unfold spacedDigits. simpl. by rewrite app_nil_r.
  - exists t. split; [by right|]. apply tokenLoopLog_inv.
    split; simpl; [split; done|].
    unfold spacedDigits. simpl. by rewrite app_nil_r.
Qed.

(** C8 (validity of a callsign): the flag [parseCallsign] returns is true
    exactly when the parse appended at least one decoded digit to the
    callsign, whether or not it stopped early.  The digits appended are
    those logged by the parser carrying its log, which returns the same
    callsign and flag; the callsign is the undecoded first token, if any,
    followed by these digits, each after a space. *)
Theorem parseCallsign_valid_iff_digit (tx : gostring) :
  (parseCallsignTokensLog (words tx)).1 = parseCallsign tx
  /\ ((parseCallsign tx).2 = true <-> digitsAppended tx <> [])
  /\ exists base,
       (base = [] \/ (head (words tx) = Some base
                      /\ numberWords !! base = None))
       /\ (parseCallsign tx).1 = base ++ spacedDigits (digitsAppended tx).
Proof.
  unfold parseCallsign, digitsAppended.
  rewrite parseCallsignTokensLog_erase.
  destruct (parseCallsignTokensLog_inv (words tx))
    as [base [Hbase [Hflag Hcs]]].
  split; [done|]. split; [done|]. by exists base.
Qed.

Lemma parseCallsign_valid_nonempty tx cs :
  parseCallsign tx = (cs, true) -> cs <> [].
Proof.
  unfold parseCallsign. rewrite parseCallsignTokensLog_erase. intros Hp.
  destruct (parseCallsignTokensLog_inv (words tx)) as [base [_ [Hflag Hcs]]].
  rewrite Hp in Hflag, Hcs. simpl in *.
  destruct ((parseCallsignTokensLog (words tx)).2) as [|d ds].
  - by destruct (proj1 Hflag eq_refl).
  - rewrite Hcs. unfold spacedDigits. simpl. by destruct base.
Qed.

(** In the digit table, a key all of whose characters are keys is one
    character long. *)
Lemma numberWords_glued_key tok d :
  numberWords !! tok = Some d -> glued tok -> exists c, tok = [c].
Proof.
  intros Hd Hg.
  assert (Hall : Forall (fun e => glued e.1 -> length e.1 = 1%nat)
                   numberWordsList).
  { apply (bool_decide_unpack _). by vm_compute. }
  apply numberWords_lookup in Hd.
  rewrite Forall_forall in Hall. specialize (Hall _ Hd Hg). simpl in Hall.
  destruct tok as [|c [|c' tok]]; try done. by exists c.
Qed.

Lemma charLoop_glued chars : forall cs v,
  glued chars ->
  charLoop (cs, v) chars
  = Next (cs ++ spacedDigits (charDigits chars),
          match chars with [] => v | _ => true end).
Proof.
  induction chars as [|c chars IH]; intros cs v Hg; simpl.
  - unfold spacedDigits. simpl. by rewrite app_nil_r.
  - apply Forall_cons in Hg as [[d Hd] Hg].
    unfold appendNumber, charDigits. simpl. rewrite Hd. simpl.
    rewrite (IH _ true Hg). f_equal. f_equal.
    + unfold spacedDigits. simpl. by rewrite <- !app_assoc.
    + by destruct chars.
Qed.

Lemma tokenLoop_glued tok post cs v :
  glued tok -> tok <> [] ->
  tokenLoop (cs, v) (tok :: post)
  = tokenLoop (cs ++ spacedDigits (charDigits tok), true) post.
Proof.
  intros Hg Hne. simpl. unfold appendNumber. simpl.
  destruct (numberWords !! tok) as [d|] eqn:Hd.
  - destruct (numberWords_glued_key tok d Hd Hg) as [c ->].
    unfold charDigits, spacedDigits. simpl. rewrite Hd. simpl.
    by rewrite app_nil_r.
  - rewrite charLoop_glued by done. by destruct tok.
Qed.

Lemma tokenLoop_decodable t rest st :
  decodable t -> tokenLoop st (t :: rest) = tokenLoop (tokenLoop st [t]) rest.
Proof.
  intros Hd. simpl. unfold appendNumber.
  destruct (numberWords !! t) as [d|] eqn:Ht; [done|].
  destruct Hd as [[d Hd]|Hg]; [congruence|].
  by rewrite charLoop_glued.
Qed.

Lemma tokenLoop_decodable_app mid rest : forall st,
  Forall decodable mid ->
  tokenLoop st (mid ++ rest) = tokenLoop (tokenLoop st mid) rest.
Proof.
  induction mid as [|t mid IH]; intros st Hall; [done|].
  apply Forall_cons in Hall as [Ht Hall].
  rewrite <- app_comm_cons.
  rewrite (tokenLoop_decodable t (mid ++ rest) st Ht).
  rewrite (tokenLoop_decodable t mid st Ht).
  by apply IH.
Qed.

Lemma glued_charDigits_length tok :
  glued tok -> length (charDigits tok) = length tok.
Proof.
  induction 1 as [|c tok [d Hd] _ IH]; [done|].
  unfold charDigits in *. simpl. rewrite Hd. simpl. by f_equal.
Qed.

(** C9, as stated, fails: in the segment "eagle x 14" the token "14" is
    glued and comes after the first, but the parse has returned at "x" and
    appends no digit. *)
Lemma parseCallsign_glued_unreached :
  words (go "eagle x 14") = [go "eagle"; go "x"; go "14"]
  /\ glued (go "14")
  /\ parseCallsign (go "eagle x 14") = (go "eagle", false)
  /\ digitsAppended (go "eagle x 14") = [].
Proof.
  split; [by vm_compute|]. split; [|by vm_compute].
  apply (bool_decide_unpack _). by vm_compute.
Qed.

(** C9 (amended): for every callsign segment whose tokens are all shorter
    than 64 KiB and which contains a glued multi-digit token after the
    first token, if every token between the first and the glued one is
    decodable (a digit word, or itself glued), the parser appends the
    decoded digit of each character of the glued token to the callsign, one
    by one, each after a space, in the order of the characters, marks the
    callsign valid, and goes on with the tokens that follow. *)
Theorem parseCallsign_glued (tx first tok : gostring)
    (mid post : list gostring) :
  scannable tx ->
  words tx = first :: mid ++ tok :: post ->
  Forall decodable mid ->
  glued tok ->
  length (charDigits tok) = length tok
  /\ parseCallsign tx
     = tokenLoop ((parseCallsignTokens (first :: mid)).1
                    ++ spacedDigits (charDigits tok), true) post.
Proof.
  intros _ Hw Hmid Hg. split; [by apply glued_charDigits_length|].
  pose proof (words_nonempty tx) as Hne. rewrite Hw in Hne.
  apply Forall_cons in Hne as [Hfirst Hne].
  apply Forall_app in Hne as [_ Hne]. apply Forall_cons in Hne as [Htok _].
  unfold parseCallsign. rewrite Hw. simpl.
  destruct (streq first []) eqn:Hf.
  { apply bool_decide_eq_true in Hf. done. }
  destruct (appendNumber [] first) as [cs0 ok0].
  rewrite tokenLoop_decodable_app by done.
  destruct (tokenLoop _ mid) as [cs v].
  by rewrite tokenLoop_glued.
Qed.

Lemma parseCallsign_glued_witness :
  parseCallsign (go " raven 1 14 ") = (go "raven 1 1 4", true).
Proof.
  refine (eq_trans
    (proj2 (parseCallsign_glued (go " raven 1 14 ") (go "raven") (go "14")
              [go "1"] [] _ _ _ _)) _).
  - apply (bool_decide_unpack _). by vm_compute.
  - by vm_compute.
  - apply (bool_decide_unpack _). by vm_compute.
  - apply (bool_decide_unpack _). by vm_compute.
  - by vm_compute.
Defined.

End callsign_facts.

(** ** The transmission parser *)

Section parse_facts.
Import parser parser_spec.
Context `{L : Library} `{R : RequestParsers}.
Local Opaque numberWords.

(** [Parse] on the tokens of the sanitized transmission. *)
Lemma Parse_tokens (p : parser) (tx : gostring) :
  Parse p tx
  = match words (sanitize p tx) with
    | [] => (None, false)
    | wake :: toks =>
        if streq wake (callsign p) || streq wake anyface then
          match triggerLoop [] [] toks with
          | None => (None, false)
          | Some (cs, rWord, scanner) => dispatch p rWord cs scanner
          end
        else (None, false)
    end.
Proof.
  unfold Parse, parseWakeWord, NewScanner, Scan. simpl.
  destruct (words (sanitize p tx)) as [|wake toks]; simpl; [done|].
  by destruct (streq wake (callsign p) || streq wake anyface).
Qed.

Lemma parseWakeWord_New (s : gostring) :
  (parseWakeWord New (NewScanner s)).1.2 = true
  <-> head (words s) = Some anyface.
Proof.
  unfold parseWakeWord, NewScanner, Scan. simpl.
  pose proof (words_nonempty s) as Hne.
  destruct (words s) as [|wake toks]; simpl; [done|].
  apply Forall_cons in Hne as [Hwake _].
  unfold streq. rewrite (bool_decide_eq_false_2 (wake = [])) by done.
  simpl. destruct (bool_decide (wake = anyface)) eqn:Hw; simpl.
  - apply bool_decide_eq_true in Hw. by subst.
  - apply bool_decide_eq_false in Hw. split; [done|]. congruence.
Qed.

Lemma triggerLoop_cons seg rWord t rest :
  triggerLoop seg rWord (t :: rest)
  = match firstRequestWord (joinSegment seg [t]) requestWords with
    | Some word =>
        let '(cs, ok) :=
          parseCallsign (TrimSuffix (joinSegment seg [t]) word) in
        if negb ok then None
        else if streq cs []
             then triggerLoop (joinSegment seg [t]) word (drop 1 rest)
             else Some (cs, word, (Scan (mkScanner t rest)).2)
    | None => triggerLoop (joinSegment seg [t]) rWord rest
    end.
Proof.
  cbn [triggerLoop]. change (seg ++ go " " ++ t) with (joinSegment seg [t]).
  destruct (firstRequestWord _ _); [|done].
  destruct (parseCallsign _) as [cs ok]. destruct ok; [|done].
  by destruct rest.
Qed.

(** The loop stops at the first token on which a request word is
    recognized, and scans one token more. *)
Lemma triggerLoop_recognized toks : forall seg rWord after word cs,
  toks <> [] ->
  firstRequestWord (joinSegment seg toks) requestWords = Some word ->
  (forall k, (0 < k < length toks)%nat ->
     firstRequestWord (joinSegment seg (take k toks)) requestWords = None) ->
  parseCallsign (TrimSuffix (joinSegment seg toks) word) = (cs, true) ->
  triggerLoop seg rWord (toks ++ after)
  = Some (cs, word, mkScanner (default [] (head after)) (drop 1 after)).
Proof.
  induction toks as [|t toks IH]; intros seg rWord after word cs Hne Hw Hk Hcs;
    [done|].
  rewrite <- app_comm_cons, triggerLoop_cons.
  destruct toks as [|t' toks].
  - rewrite Hw, Hcs. cbn [negb].
    pose proof (parseCallsign_valid_nonempty _ _ Hcs) as Hcsne.
    unfold streq. rewrite (bool_decide_eq_false_2 (cs = [])) by done.
    by destruct after.
  - pose proof (Hk 1%nat) as Hk1. cbn [take length] in Hk1.
    rewrite Hk1 by lia.
    apply (IH (joinSegment seg [t])); [done|exact Hw| |exact Hcs].
    intros k Hlt. apply (Hk (S k)). cbn [length] in *. lia.
Qed.

Lemma Scan_after (t : gostring) (after : list gostring) :
  (Scan (mkScanner t after)).2
  = mkScanner (default [] (head after)) (drop 1 after).
Proof. by destruct after. Qed.

Lemma Parse_recognized (p : parser) (tx wake : gostring)
    (toks after : list gostring) (word : requestWord) (cs : gostring) :
  words (sanitize p tx) = wake :: toks ++ after ->
  wake = callsign p \/ wake = anyface ->
  recognizes toks word ->
  parseCallsign (TrimSuffix (joinSegment [] toks) word) = (cs, true) ->
  Parse p tx
  = dispatch p word cs (mkScanner (default [] (head after)) (drop 1 after)).
Proof.
  intros Hw Hwake [Hne [Hword Hk]] Hcs.
  rewrite Parse_tokens, Hw.
  replace (streq wake (callsign p) || streq wake anyface) with true.
  - by rewrite (triggerLoop_recognized toks [] [] after word cs).
  - symmetry. apply orb_true_iff. unfold streq.
    destruct Hwake; [left|right]; by apply bool_decide_eq_true.
Qed.

(** C3 (amended): when the Trigger Scanner recognizes a request word at
    the end of the tokens [toks] of a transmission whose tokens are all
    shorter than 64 KiB, and the callsign segment decodes, [Parse] scans
    exactly one token more before it dispatches: the per-request parser is
    called with the first token after the trigger as the scanner's current
    token (the empty string when there is none) and with the tokens after
    it still to be scanned.  The token is not dropped: it is the one a
    per-request parser reads first. *)
Theorem Parse_scans_one_token (p : parser) (tx wake : gostring)
    (toks after : list gostring) (word : requestWord) (cs : gostring) :
  scannable (sanitize p tx) ->
  words (sanitize p tx) = wake :: toks ++ after ->
  wake = callsign p \/ wake = anyface ->
  recognizes toks word ->
  parseCallsign (TrimSuffix (joinSegment [] toks) word) = (cs, true) ->
  let scanner := mkScanner (default [] (head after)) (drop 1 after) in
  Parse p tx = dispatch p word cs scanner
  /\ scanner = (Scan (mkScanner (default [] (last toks)) after)).2.
Proof.
  intros _ Hw Hwake Hrec Hcs. cbn zeta. split.
  - by eapply Parse_recognized.
  - by rewrite Scan_after.
Qed.

(** C10 (a parser made by [New]): its controller callsign is empty; no
    token of a text is empty; so its wake-word check succeeds exactly when
    the first token is "anyface", and [Parse] fails on every transmission
    whose sanitized text does not start with that token. *)
Theorem New_requires_anyface :
  callsign New = []
  /\ (forall s : gostring, Forall (fun t => t <> []) (words s))
  /\ (forall s : gostring,
        (parseWakeWord New (NewScanner s)).1.2 = true
        <-> head (words s) = Some anyface)
  /\ (forall tx : gostring,
        head (words (sanitize New tx)) <> Some anyface ->
        Parse New tx = (None, false)).
Proof.
  split; [done|]. split; [apply words_nonempty|].
  split; [apply parseWakeWord_New|].
  intros tx Hhead. rewrite Parse_tokens.
  pose proof (words_nonempty (sanitize New tx)) as Hne.
  destruct (words (sanitize New tx)) as [|wake toks]; [done|].
  apply Forall_cons in Hne as [Hwake _]. simpl in Hhead.
  unfold streq. simpl.
  rewrite (bool_decide_eq_false_2 (wake = [])) by done.
  rewrite (bool_decide_eq_false_2 (wake = anyface)) by congruence.
  done.
Qed.



(** C2 fails on the code: "spike" is not a request word, no request word
    is recognized in the second transmission of [TestParserSpiked], and
    [Parse] rejects it whatever the per-request parsers do. *)
Theorem Parse_spike_not_recognized (p : parser) (tx : gostring) :
  words (sanitize p tx)
    = go <$> ["anyface"; "raven"; "1"; "4"; "spike"; "0"; "2"; "0"]%string ->
  (go "spike" ∉ requestWords) /\ Parse p tx = (None, false).
Proof.
  intros Hw. split.
  - apply (bool_decide_unpack _). by vm_compute.
  - assert (Ht : triggerLoop [] []
                   (go <$> ["raven"; "1"; "4"; "spike"; "0"; "2"; "0"]%string)
                 = None) by (by vm_compute).
    rewrite Parse_tokens, Hw. cbn [fmap list_fmap] in *. rewrite Ht.
    by destruct (_ || _).
Qed.

(** The same transmission with the full form of the trigger reaches the
    bearing-report parser, with the callsign decoded and the scanner one
    token past the trigger. *)
Lemma Parse_spiked_reaches_parser (p : parser) (tx : gostring) :
  words (sanitize p tx)
    = go <$> ["anyface"; "raven"; "1"; "4"; "spiked"; "0"; "2"; "0"]%string ->
  Parse p tx
  = parseSpiked p (go "raven 1 4") (mkScanner (go "0") [go "2"; go "0"]).
Proof.
  intros Hw.
  rewrite (Parse_recognized p tx anyface
             (go <$> ["raven"; "1"; "4"; "spiked"]%string)
             (go <$> ["0"; "2"; "0"]%string) spiked (go "raven 1 4")).
  - done.
  - exact Hw.
  - by right.
  - split; [done|]. split; [by vm_compute|].
    intros k Hk. cbn [length fmap list_fmap] in Hk.
    destruct k as [|[|[|[|k]]]];
      [lia|by vm_compute|by vm_compute|by vm_compute|lia].
  - by vm_compute.
Qed.

End parse_facts.

(** *** The transmissions of [TestParserSpiked], and two more *)

Section parse_examples.
Import parser parser_spec.

Lemma recognizes_eagle_1_spiked :
  recognizes [go "eagle"; go "1"; spiked] spiked.
Proof.
  split; [done|]. split; [by vm_compute|].
  intros k Hk. cbn [length] in Hk.
  destruct k as [|[|[|k]]]; [lia|by vm_compute|by vm_compute|lia].
Qed.

Lemma Parse_scans_one_token_witness :
  @Parse asciiLibrary specParsers New (go "ANYFACE, EAGLE 1 SPIKED 2-7-0")
  = @parseSpiked specParsers New (go "eagle 1")
      (mkScanner (go "2") [go "7"; go "0"]).
Proof.
  refine (eq_trans
    (proj1 (@Parse_scans_one_token asciiLibrary specParsers New
              (go "ANYFACE, EAGLE 1 SPIKED 2-7-0") anyface
              [go "eagle"; go "1"; spiked] [go "2"; go "7"; go "0"]
              spiked (go "eagle 1") _ _ _ _ _)) _).
  - apply (bool_decide_unpack _). by vm_compute.
  - by vm_compute.
  - by right.
  - exact recognizes_eagle_1_spiked.
  - by vm_compute.
  - done.
Defined.

(** C3, as stated, fails: with the bearing-report parser of the
    specification, two transmissions that differ only in the first token
    after the trigger get different bearings; that token is the scanner's
    current token when the per-request parser is called. *)
Lemma Parse_first_token_reaches_parser :
  @Parse asciiLibrary specParsers New (go "ANYFACE, EAGLE 1 SPIKED 2-7-0")
  = (Some (spikedRequest (go "eagle 1") 270), true)
  /\ @Parse asciiLibrary specParsers New (go "ANYFACE, EAGLE 1 SPIKED 1-7-0")
     = (Some (spikedRequest (go "eagle 1") 170), true)
  /\ triggerLoop [] []
       [go "eagle"; go "1"; go "spiked"; go "2"; go "7"; go "0"]
     = Some (go "eagle 1", spiked, mkScanner (go "2") [go "7"; go "0"]).
Proof. repeat split; by vm_compute. Qed.

Lemma New_requires_anyface_witness :
  @Parse asciiLibrary specParsers New (go "Eagle 1, radio check")
  = (None, false).
Proof.
  apply (proj2 (proj2 (proj2 (@New_requires_anyface asciiLibrary
                                specParsers)))).
  vm_compute. intros H. discriminate H.
Defined.


(** The digits 0, 2, 0 after the full form of the trigger give 20
    degrees. *)
Lemma Parse_spiked_020 :
  @Parse asciiLibrary specParsers New (go "Anyface Raven 1-4, Spiked 0-2-0")
  = (Some (spikedRequest (go "raven 1 4") 20), true).
Proof. by vm_compute. Qed.


Lemma Parse_spike_not_recognized_witness :
  @Parse asciiLibrary specParsers New (go "Anyface Raven 1-4, Spike 0-2-0")
  = (None, false).
Proof.
  apply (@Parse_spike_not_recognized asciiLibrary specParsers New
           (go "Anyface Raven 1-4, Spike 0-2-0")).
  by vm_compute.
Defined.

(** With the full form of the trigger the callsign of the second
    transmission decodes as the test expects. *)
Lemma Parse_raven_radio_check :
  @Parse asciiLibrary specParsers New (go "Anyface Raven 1-4, radio check")
  = (Some (radioCheckRequest (go "raven 1 4")), true).
Proof. by vm_compute. Qed.

End parse_examples.

(** ** Coalitions *)

Section coalition_facts.
Import types.
Context `{K : Coalitions}.

(** C4 (non-participants): [IsSpectator] is true exactly for the values
    that are neither of the two team constants, and false exactly for
    those two; no bound is put on the other values. *)
Theorem IsSpectator_iff (c : Coalition) :
  (IsSpectator c = true <-> c <> CoalitionBlue /\ c <> CoalitionRed)
  /\ (IsSpectator c = false <-> c = CoalitionBlue \/ c = CoalitionRed).
Proof.
  unfold IsSpectator.
  destruct (Z.eqb_spec c CoalitionBlue), (Z.eqb_spec c CoalitionRed);
    simpl; intuition congruence.
Qed.

End coalition_facts.

(** The assertions of [TestIsSpectator] hold when the team constants are 1
    and 2. *)
Lemma TestIsSpectator_passes :
  @types.TestIsSpectator
    {| types.CoalitionBlue := 2; types.CoalitionRed := 1 |} = true.
Proof. by vm_compute. Qed.


(** ** More on the callsign parser *)

Section callsign_more.
Import parser parser_spec.

Lemma numberWords_digit tok d :
  numberWords !! tok = Some d -> 0 <= d <= 9.
Proof.
  intros Hd. apply numberWords_lookup in Hd.
  assert (Hall : Forall (fun e => 0 <= e.2 <= 9) numberWordsList).
  { apply (bool_decide_unpack _). by vm_compute. }
  rewrite Forall_forall in Hall. apply (Hall _ Hd).
Qed.

(** The numeral of a digit is one character, not a space, and decodes to
    that digit. *)
Lemma fmt_d_digit d :
  0 <= d <= 9 ->
  numberWords !! fmt_d d = Some d /\ nospace (fmt_d d) /\ fmt_d d <> [].
Proof.
  intros Hd.
  assert (Hcases : d = 0 \/ d = 1 \/ d = 2 \/ d = 3 \/ d = 4 \/ d = 5
                   \/ d = 6 \/ d = 7 \/ d = 8 \/ d = 9) by lia.
  unfold nospace.
  destruct Hcases as [->|[->|[->|[->|[->|[->|[->|[->|[->| ->]]]]]]]]];
    (split; [by vm_compute|split; [by repeat constructor|done]]).
Qed.

Local Opaque numberWords.

Lemma scanWords_nospace s : forall cur,
  nospace cur -> Forall nospace (scanWords cur s).
Proof.
  induction s as [|r s IH]; intros cur Hcur; simpl.
  - destruct cur; [constructor|]. constructor; [done|constructor].
  - destruct (isSpace r) eqn:Hr.
    + destruct cur; [by apply IH|].
      constructor; [done|]. apply IH. constructor.
    + apply IH. apply Forall_app. split; [done|].
      constructor; [done|constructor].
Qed.

Lemma words_nospace s : Forall nospace (words s).
Proof. apply scanWords_nospace. constructor. Qed.

Lemma scanWords_token t : forall cur s,
  nospace t -> scanWords cur (t ++ s) = scanWords (cur ++ t) s.
Proof.
  induction t as [|r t IH]; intros cur s Ht; simpl.
  - by rewrite app_nil_r.
  - apply Forall_cons in Ht as [Hr Ht]. rewrite Hr, IH by done.
    by rewrite <- app_assoc.
Qed.

Lemma spacedTokens_cons t toks :
  spacedTokens (t :: toks) = 32 :: t ++ spacedTokens toks.
Proof. done. Qed.

Lemma scanWords_spacedTokens toks : forall cur,
  Forall (fun t => nospace t /\ t <> []) toks ->
  scanWords cur (spacedTokens toks)
  = match cur with [] => toks | _ => cur :: toks end.
Proof.
  induction toks as [|t toks IH]; intros cur Hall.
  - by destruct cur.
  - apply Forall_cons in Hall as [[Ht Hne] Hall].
    rewrite spacedTokens_cons.
    cbn [scanWords]. change (isSpace 32) with true. cbv iota.
    assert (Hrest : scanWords [] (t ++ spacedTokens toks) = t :: toks).
    { rewrite scanWords_token by done. rewrite IH by done. simpl.
      by destruct t. }
    rewrite Hrest. by destruct cur.
Qed.

Lemma words_callsign base toks :
  nospace base ->
  Forall (fun t => nospace t /\ t <> []) toks ->
  words (base ++ spacedTokens toks)
  = match base with [] => toks | _ => base :: toks end.
Proof.
  intros Hb Hall. unfold words.
  rewrite scanWords_token by done. by apply scanWords_spacedTokens.
Qed.

Lemma spacedDigits_tokens ds : spacedDigits ds = spacedTokens (fmt_d <$> ds).
Proof.
  unfold spacedDigits, spacedTokens. by rewrite <- list_fmap_compose.
Qed.

(** The digits logged are digits of the table. *)
Lemma charLoopLog_digits chars : forall st : csLog,
  Forall (fun d => 0 <= d <= 9) st.2 ->
  match charLoopLog st chars with
  | Next st' | Return st' => Forall (fun d => 0 <= d <= 9) st'.2
  end.
Proof.
  induction chars as [|c chars IH]; intros st Hst; simpl; [done|].
  destruct (numberWords !! [c]) as [d|] eqn:Hd; [|done].
  apply IH. simpl. apply Forall_app. split; [done|].
  repeat constructor; by eapply numberWords_digit.
Qed.

Lemma tokenLoopLog_digits toks : forall st : csLog,
  Forall (fun d => 0 <= d <= 9) st.2 ->
  Forall (fun d => 0 <= d <= 9) (tokenLoopLog st toks).2.
Proof.
  induction toks as [|t toks IH]; intros st Hst; simpl; [done|].
  destruct (numberWords !! t) as [d|] eqn:Hd.
  - apply IH. simpl. apply Forall_app. split; [done|].
    repeat constructor; by eapply numberWords_digit.
  - pose proof (charLoopLog_digits t st Hst) as H.
    destruct (charLoopLog st t) as [st'|st']; [by apply IH|done].
Qed.

Lemma parseCallsignTokensLog_digits toks :
  Forall (fun d => 0 <= d <= 9) (parseCallsignTokensLog toks).2.
Proof.
  destruct toks as [|t toks]; simpl; [done|].
  destruct (streq t []); [done|].
  destruct (numberWords !! t) as [d|] eqn:Hd.
  - apply tokenLoopLog_digits. simpl.
    repeat constructor; by eapply numberWords_digit.
  - by apply tokenLoopLog_digits.
Qed.

Lemma tokenLoop_digits ds : forall cs v,
  Forall (fun d => 0 <= d <= 9) ds ->
  tokenLoop (cs, v) (fmt_d <$> ds)
  = (cs ++ spacedDigits ds, match ds with [] => v | _ => true end).
Proof.
  induction ds as [|d ds IH]; intros cs v Hds.
  - simpl. unfold spacedDigits. simpl. by rewrite app_nil_r.
  - apply Forall_cons in Hds as [Hd Hds].
    destruct (fmt_d_digit d Hd) as [Hlook _].
    rewrite fmap_cons. cbn [tokenLoop]. unfold appendNumber. simpl.
    rewrite Hlook. simpl. rewrite IH by done.
    unfold spacedDigits. simpl. rewrite <- !app_assoc. f_equal.
    by destruct ds.
Qed.

(** X6 (the normal form of a callsign): the digits [parseCallsign] appends
    are digits from 0 to 9, and the callsign it returns is in normal form:
    parsing it again gives the same callsign and the same flag. *)
Theorem parseCallsign_idempotent (tx : gostring) :
  Forall (fun d => 0 <= d <= 9) (digitsAppended tx)
  /\ parseCallsign (parseCallsign tx).1 = parseCallsign tx.
Proof.
  split; [apply parseCallsignTokensLog_digits|].
  pose proof (parseCallsignTokensLog_digits (words tx)) as Hds.
  pose proof (words_nonempty tx) as Hne.
  pose proof (words_nospace tx) as Hns.
  unfold parseCallsign at 2 3. rewrite parseCallsignTokensLog_erase.
  destruct (parseCallsignTokensLog_inv (words tx))
    as [base [Hbase [Hflag Hcs]]].
  destruct (parseCallsignTokensLog (words tx)) as [[cs v] ds].
  simpl in *. subst cs.
  assert (Htoks : Forall (fun t => nospace t /\ t <> []) (fmt_d <$> ds)).
  { apply Forall_fmap. eapply Forall_impl; [exact Hds|].
    intros d Hd. simpl. by destruct (fmt_d_digit d Hd) as (_ & ? & ?). }
  assert (Hv : v = match ds with [] => false | _ => true end).
  { destruct ds, v; try done.
    - by destruct (proj1 Hflag eq_refl).
    - by destruct (proj2 Hflag). }
  unfold parseCallsign. rewrite spacedDigits_tokens.
  destruct Hbase as [->|[Hhead Hnone]].
  - rewrite (words_callsign [] _ (Forall_nil_2 _) Htoks).
    rewrite <- spacedDigits_tokens.
    destruct ds as [|d ds]; [by subst|].
    apply Forall_cons in Hds as [Hd Hds].
    destruct (fmt_d_digit d Hd) as (Hlook & _ & Hdne).
    rewrite fmap_cons. cbn [parseCallsignTokens].
    unfold streq. rewrite (bool_decide_eq_false_2 (fmt_d d = [])) by done.
    unfold appendNumber. rewrite Hlook. simpl.
    rewrite tokenLoop_digits by done. subst v.
    unfold spacedDigits. simpl. f_equal. by destruct ds.
  - destruct (words tx) as [|t toks]; [done|]. simpl in Hhead.
    injection Hhead as ->.
    apply Forall_cons in Hne as [Hbne _]. apply Forall_cons in Hns as [Hbns _].
    rewrite (words_callsign _ _ Hbns Htoks). rewrite <- spacedDigits_tokens.
    destruct base as [|r base]; [done|].
    cbn [parseCallsignTokens].
    unfold streq. rewrite (bool_decide_eq_false_2 (r :: base = [])) by done.
    unfold appendNumber. rewrite Hnone. simpl.
    rewrite tokenLoop_digits by done. by subst v.
Qed.

Lemma charLoop_stops good c rest : forall cs v,
  glued good -> numberWords !! [c] = None ->
  charLoop (cs, v) (good ++ c :: rest)
  = Return (cs ++ spacedDigits (charDigits good),
            match good with [] => v | _ => true end).
Proof.
  induction good as [|g good IH]; intros cs v Hg Hc; simpl.
  - unfold appendNumber. rewrite Hc. simpl.
    unfold spacedDigits. simpl. by rewrite app_nil_r.
  - apply Forall_cons in Hg as [[d Hd] Hg].
    unfold appendNumber, charDigits. simpl. rewrite Hd. simpl.
    rewrite (IH _ true Hg Hc). f_equal. f_equal.
    + unfold spacedDigits. simpl. by rewrite <- !app_assoc.
    + by destruct good.
Qed.

(** X7 (a token that does not decode), for a segment whose tokens are all
    shorter than 64 KiB: when the callsign loop comes to a
    token that is not a digit word and has a character that is not one
    either, it appends the digits of the characters before that one and
    returns: the rest of the token and all tokens after it are not read,
    and the flag is as accumulated. *)
Theorem parseCallsign_stops_at_garbage (tx first good rest : gostring)
    (c : rune) (mid post : list gostring) :
  scannable tx ->
  words tx = first :: mid ++ (good ++ c :: rest) :: post ->
  Forall decodable mid ->
  glued good ->
  numberWords !! [c] = None ->
  numberWords !! (good ++ c :: rest) = None ->
  parseCallsign tx
  = ((parseCallsignTokens (first :: mid)).1 ++ spacedDigits (charDigits good),
     match good with
     | [] => (parseCallsignTokens (first :: mid)).2
     | _ => true
     end).
Proof.
  intros _ Hw Hmid Hg Hc Hnone.
  pose proof (words_nonempty tx) as Hne. rewrite Hw in Hne.
  apply Forall_cons in Hne as [Hfirst _].
  unfold parseCallsign. rewrite Hw. simpl.
  destruct (streq first []) eqn:Hf.
  { apply bool_decide_eq_true in Hf. done. }
  destruct (appendNumber [] first) as [cs0 ok0].
  rewrite tokenLoop_decodable_app by done.
  destruct (tokenLoop _ mid) as [cs v].
  cbn [tokenLoop]. unfold appendNumber. rewrite Hnone. simpl.
  by rewrite charLoop_stops.
Qed.

Lemma parseCallsign_stops_at_garbage_witness :
  parseCallsign (go "eagle 1 2x3 4") = (go "eagle 1 2", true).
Proof.
  refine (eq_trans
    (parseCallsign_stops_at_garbage (go "eagle 1 2x3 4") (go "eagle")
       (go "2") (go "3") 120 [go "1"] [go "4"] _ _ _ _ _ _) _).
  - apply (bool_decide_unpack _). by vm_compute.
  - by vm_compute.
  - apply (bool_decide_unpack _). by vm_compute.
  - apply (bool_decide_unpack _). by vm_compute.
  - by vm_compute.
  - by vm_compute.
  - by vm_compute.
Defined.

End callsign_more.

(** ** More on the transmission parser *)

Section vocabulary_facts.
Import parser parser_spec.

Lemma HasSuffix_suffix (s sfx : gostring) :
  HasSuffix s sfx = true <-> sfx `suffix_of` s.
Proof.
  unfold HasSuffix, streq.
  rewrite andb_true_iff, !bool_decide_eq_true. split.
  - intros [_ Hd]. rewrite <- Hd. apply suffix_drop.
  - intros [k ->]. rewrite length_app. split; [lia|].
    replace (length k + length sfx - length sfx)%nat with (length k) by lia.
    by rewrite drop_app_length.
Qed.

Lemma firstRequestWord_Some segment ws w :
  firstRequestWord segment ws = Some w ->
  w ∈ ws /\ HasSuffix segment w = true.
Proof.
  induction ws as [|word ws IH]; simpl; [done|].
  destruct (HasSuffix segment word) eqn:Hs; intros H.
  - injection H as <-. split; [by left|done].
  - destruct (IH H). split; [by right|done].
Qed.

Lemma firstRequestWord_None segment ws :
  firstRequestWord segment ws = None ->
  Forall (fun w => HasSuffix segment w = false) ws.
Proof.
  induction ws as [|word ws IH]; simpl; [constructor|].
  destruct (HasSuffix segment word) eqn:Hs; [done|].
  intros H. constructor; [done|by apply IH].
Qed.

(** No request word of the vocabulary ends with another one. *)
Lemma requestWords_no_overlap w1 w2 :
  w1 ∈ requestWords -> w2 ∈ requestWords -> w1 `suffix_of` w2 -> w1 = w2.
Proof.
  assert (Hall : Forall (fun w1 => Forall (fun w2 =>
                   w1 `suffix_of` w2 -> w1 = w2) requestWords) requestWords).
  { apply (bool_decide_unpack _). by vm_compute. }
  intros H1 H2. rewrite Forall_forall in Hall.
  specialize (Hall _ H1). rewrite Forall_forall in Hall. by apply Hall.
Qed.

Lemma firstRequestWord_complete (segment : gostring) (w : requestWord) :
  w ∈ requestWords -> HasSuffix segment w = true ->
  firstRequestWord segment requestWords = Some w.
Proof.
  intros Hin Hs.
  destruct (firstRequestWord segment requestWords) as [w'|] eqn:Hf.
  - apply firstRequestWord_Some in Hf as [Hin' Hs']. f_equal.
    apply HasSuffix_suffix in Hs, Hs'.
    destruct (suffix_weak_total _ _ _ Hs Hs') as [H|H].
    + symmetry. by apply requestWords_no_overlap.
    + by apply requestWords_no_overlap.
  - apply firstRequestWord_None in Hf. rewrite Forall_forall in Hf.
    specialize (Hf _ Hin). congruence.
Qed.

(** X8 (the vocabulary is unambiguous): no request word ends with another
    one, so at most one is a suffix of a segment, and the word the scanner
    picks is the request word the segment ends with, whatever the order of
    the vocabulary. *)
Theorem requestWords_unambiguous (segment : gostring) (w : requestWord) :
  firstRequestWord segment requestWords = Some w
  <-> w ∈ requestWords /\ HasSuffix segment w = true.
Proof.
  split.
  - apply firstRequestWord_Some.
  - intros [Hin Hs]. by apply firstRequestWord_complete.
Qed.

(** X14 (a trigger inside a token): the request word is looked for at the
    end of the accumulated text, not as a token of its own, so a token that
    merely ends with a request word triggers that request. *)
Theorem token_ending_in_request_word_triggers (seg t : gostring)
    (w : requestWord) :
  w ∈ requestWords -> HasSuffix t w = true ->
  firstRequestWord (joinSegment seg [t]) requestWords = Some w.
Proof.
  intros Hin Hs. apply firstRequestWord_complete; [done|].
  apply HasSuffix_suffix. apply HasSuffix_suffix in Hs.
  destruct Hs as [k ->]. exists (seg ++ go " " ++ k).
  unfold joinSegment. simpl. by rewrite <- !app_assoc.
Qed.

Lemma token_ending_in_request_word_triggers_witness :
  firstRequestWord (joinSegment (go " eagle 1") [go "unspiked"]) requestWords
  = Some spiked.
Proof.
  apply token_ending_in_request_word_triggers.
  - apply (bool_decide_unpack _). by vm_compute.
  - by vm_compute.
Defined.

End vocabulary_facts.

Section parse_more.
Import parser parser_spec.
Context `{L : Library} `{R : RequestParsers}.
Local Opaque numberWords.

Lemma triggerLoop_no_trigger toks : forall seg rWord,
  (forall k, (0 < k <= length toks)%nat ->
     firstRequestWord (joinSegment seg (take k toks)) requestWords = None) ->
  triggerLoop seg rWord toks = None.
Proof.
  induction toks as [|t toks IH]; intros seg rWord Hk; [done|].
  rewrite triggerLoop_cons.
  pose proof (Hk 1%nat) as Hk1. change (take 1 (t :: toks)) with [t] in Hk1.
  cbn [length] in Hk1. rewrite Hk1 by lia.
  apply IH. intros k Hlt. apply (Hk (S k)). cbn [length]. lia.
Qed.

(** X9 (no trigger): a transmission in which the scanner never finds a
    request word at the end of the segment it accumulates after the first
    token is rejected; so is a transmission with no token, or with a wake
    word and nothing else. *)
Theorem Parse_no_trigger (p : parser) (tx : gostring) :
  (forall k, (0 < k <= length (drop 1 (words (sanitize p tx))))%nat ->
     firstRequestWord
       (joinSegment [] (take k (drop 1 (words (sanitize p tx)))))
       requestWords = None) ->
  Parse p tx = (None, false).
Proof.
  intros Hk. rewrite Parse_tokens.
  destruct (words (sanitize p tx)) as [|wake toks]; [done|].
  cbn [drop] in Hk. rewrite (triggerLoop_no_trigger toks [] [] Hk).
  by destruct (_ || _).
Qed.

Lemma triggerLoop_undecoded toks : forall seg rWord after word cs,
  toks <> [] ->
  firstRequestWord (joinSegment seg toks) requestWords = Some word ->
  (forall k, (0 < k < length toks)%nat ->
     firstRequestWord (joinSegment seg (take k toks)) requestWords = None) ->
  parseCallsign (TrimSuffix (joinSegment seg toks) word) = (cs, false) ->
  triggerLoop seg rWord (toks ++ after) = None.
Proof.
  induction toks as [|t toks IH]; intros seg rWord after word cs Hne Hw Hk Hcs;
    [done|].
  rewrite <- app_comm_cons, triggerLoop_cons.
  destruct toks as [|t' toks].
  - by rewrite Hw, Hcs.
  - pose proof (Hk 1%nat) as Hk1. cbn [take length] in Hk1.
    rewrite Hk1 by lia.
    apply (IH (joinSegment seg [t]) _ _ word cs); [done|exact Hw| |exact Hcs].
    intros k Hlt. apply (Hk (S k)). cbn [length] in *. lia.
Qed.

(** X10 (a callsign without a digit): when the scanner recognizes a
    request word and the callsign segment before it yields no valid
    callsign, the transmission is rejected, whatever follows the trigger;
    no later trigger is looked for. *)
Theorem Parse_callsign_undecoded (p : parser) (tx wake : gostring)
    (toks after : list gostring) (word : requestWord) (cs : gostring) :
  words (sanitize p tx) = wake :: toks ++ after ->
  recognizes toks word ->
  parseCallsign (TrimSuffix (joinSegment [] toks) word) = (cs, false) ->
  Parse p tx = (None, false).
Proof.
  intros Hw [Hne [Hword Hk]] Hcs. rewrite Parse_tokens, Hw.
  rewrite (triggerLoop_undecoded toks [] [] after word cs) by done.
  by destruct (_ || _).
Qed.

(** X11 (the simple requests), for a transmission whose tokens are all
    shorter than 64 KiB: when the scanner recognizes "alpha check" or
    "radio check" after a wake word and the callsign decodes, [Parse]
    succeeds with the request of that kind carrying the callsign, whatever
    tokens follow and whatever the per-request parsers do. *)
Theorem Parse_simple_request (p : parser) (tx wake : gostring)
    (toks after : list gostring) (word : requestWord) (cs : gostring) :
  scannable (sanitize p tx) ->
  words (sanitize p tx) = wake :: toks ++ after ->
  wake = callsign p \/ wake = anyface ->
  word = alphaCheck \/ word = radioCheck ->
  recognizes toks word ->
  parseCallsign (TrimSuffix (joinSegment [] toks) word) = (cs, true) ->
  Parse p tx
  = (Some (if streq word alphaCheck then alphaCheckRequest cs
           else radioCheckRequest cs), true).
Proof.
  intros _ Hw Hwake Hword Hrec Hcs.
  rewrite (Parse_recognized p tx wake toks after word cs) by done.
  by destruct Hword as [-> | ->].
Qed.

(** X12 (the wake word, for any parser): a transmission whose first token
    is neither the parser's callsign nor "anyface" is rejected; and since a
    token is never empty and has no white space, a parser whose callsign is
    empty or contains white space accepts only "anyface". *)
Theorem Parse_wake_word (p : parser) (tx : gostring) :
  (head (words (sanitize p tx)) <> Some (callsign p) ->
   head (words (sanitize p tx)) <> Some anyface ->
   Parse p tx = (None, false))
  /\ (callsign p = [] \/ Exists (fun r => isSpace r = true) (callsign p) ->
      head (words (sanitize p tx)) <> Some anyface ->
      Parse p tx = (None, false)).
Proof.
  assert (Hgen : head (words (sanitize p tx)) <> Some (callsign p) ->
                 head (words (sanitize p tx)) <> Some anyface ->
                 Parse p tx = (None, false)).
  { intros Hc Ha. rewrite Parse_tokens.
    destruct (words (sanitize p tx)) as [|wake toks]; [done|].
    simpl in Hc, Ha. unfold streq.
    rewrite (bool_decide_eq_false_2 (wake = callsign p)) by congruence.
    by rewrite (bool_decide_eq_false_2 (wake = anyface)) by congruence. }
  split; [done|].
  intros Hcs Ha. apply Hgen; [|done].
  pose proof (words_nonempty (sanitize p tx)) as Hne.
  pose proof (words_nospace (sanitize p tx)) as Hns.
  destruct (words (sanitize p tx)) as [|wake toks]; [done|].
  apply Forall_cons in Hne as [Hne _]. apply Forall_cons in Hns as [Hns _].
  simpl. intros [= ->]. destruct Hcs as [Hcs|Hcs]; [done|].
  apply Exists_exists in Hcs as (r & Hr & Hsp).
  unfold nospace in Hns. rewrite Forall_forall in Hns.
  specialize (Hns r Hr). congruence.
Qed.

(** X13 (nil exactly on failure): if each per-request parser returns nil
    exactly when its flag is false, so does [Parse]. *)
Theorem Parse_nil_iff_not_ok (p : parser) (tx : gostring) :
  (forall q cs sc, nilIffNotOk (parseBogeyDope q cs sc)) ->
  (forall q cs sc, nilIffNotOk (parseDeclare q cs sc)) ->
  (forall q cs sc, nilIffNotOk (parsePicture q cs sc)) ->
  (forall q cs sc, nilIffNotOk (parseSpiked q cs sc)) ->
  (forall q cs sc, nilIffNotOk (parseSnaplock q cs sc)) ->
  nilIffNotOk (Parse p tx).
Proof.
  intros Hb Hd Hp Hs Hl.
  assert (Hfail : nilIffNotOk (@None (any other), false)).
  { split; simpl; [done|]. by intros [x Hx]. }
  rewrite Parse_tokens.
  destruct (words (sanitize p tx)) as [|wake toks]; [done|].
  destruct (_ || _); [|done].
  destruct (triggerLoop [] [] toks) as [[[cs rWord] sc]|]; [|done].
  unfold dispatch.
  repeat (match goal with
          | |- context [if ?b then _ else _] => destruct b
          end; try done);
    split; simpl; eauto.
Qed.

End parse_more.

Section parse_more_examples.
Import parser parser_spec.
Local Opaque numberWords.

Lemma Parse_no_trigger_witness :
  @Parse asciiLibrary specParsers New (go "Anyface, Eagle 1, spike 2-7-0")
  = (None, false).
Proof.
  apply (@Parse_no_trigger asciiLibrary specParsers).
  intros k Hk.
  assert (Hlen : length (drop 1 (words (@sanitize asciiLibrary New
                   (go "Anyface, Eagle 1, spike 2-7-0")))) = 6%nat)
    by (by vm_compute).
  rewrite Hlen in Hk.
  destruct k as [|[|[|[|[|[|[|k]]]]]]]; try lia; by vm_compute.
Defined.

Lemma Parse_callsign_undecoded_witness :
  @Parse asciiLibrary specParsers New (go "Anyface, Eagle, radio check")
  = (None, false).
Proof.
  apply (@Parse_callsign_undecoded asciiLibrary specParsers New
           (go "Anyface, Eagle, radio check") anyface
           [go "eagle"; go "radio"; go "check"] [] radioCheck (go "eagle")).
  - by vm_compute.
  - split; [done|]. split; [by vm_compute|].
    intros k Hk. cbn [length] in Hk.
    destruct k as [|[|[|k]]]; [lia|by vm_compute|by vm_compute|lia].
  - by vm_compute.
Defined.

Lemma Parse_simple_request_witness :
  @Parse asciiLibrary specParsers New
    (go "Anyface, Eagle 1-1, alpha check, and then some")
  = (Some (alphaCheckRequest (go "eagle 1 1")), true).
Proof.
  apply (@Parse_simple_request asciiLibrary specParsers New
           (go "Anyface, Eagle 1-1, alpha check, and then some") anyface
           [go "eagle"; go "1"; go "1"; go "alpha"; go "check"]
           [go "and"; go "then"; go "some"] alphaCheck (go "eagle 1 1")).
  - apply (bool_decide_unpack _). by vm_compute.
  - by vm_compute.
  - by right.
  - by left.
  - split; [done|]. split; [by vm_compute|].
    intros k Hk. cbn [length] in Hk.
    destruct k as [|[|[|[|[|k]]]]];
      [lia|by vm_compute|by vm_compute|by vm_compute|by vm_compute|lia].
  - by vm_compute.
Defined.

Lemma Parse_wake_word_witness :
  @Parse asciiLibrary specParsers (mkParser (go "magic 1"))
    (go "Magic 1, Eagle 1, radio check")
  = (None, false).
Proof.
  apply (proj2 (@Parse_wake_word asciiLibrary specParsers
                  (mkParser (go "magic 1"))
                  (go "Magic 1, Eagle 1, radio check"))).
  - right. apply (bool_decide_unpack _). by vm_compute.
  - vm_compute. intros H. discriminate H.
Defined.

Lemma parseSpiked_spec_nilIffNotOk (other : Type) q cs sc :
  nilIffNotOk (@parseSpiked_spec other q cs sc).
Proof.
  assert (Hfail : nilIffNotOk (@None (any other), false)).
  { split; cbn [fst snd]; [done|]. by intros [x Hx]. }
  unfold parseSpiked_spec.
  destruct (pending sc) as [|b [|c [|d toks]]]; try exact Hfail.
  destruct (numberWords !! Text sc); [|exact Hfail].
  destruct (numberWords !! b); [|exact Hfail].
  destruct (numberWords !! c); [|exact Hfail].
  cbn zeta. destruct (_ <? 360); [|exact Hfail].
  split; cbn [fst snd]; eauto.
Qed.

Lemma Parse_nil_iff_not_ok_witness :
  nilIffNotOk (@Parse asciiLibrary specParsers New
                 (go "ANYFACE, EAGLE 1 SPIKED 9 2-7-0")).
Proof.
  apply (@Parse_nil_iff_not_ok asciiLibrary specParsers);
    intros q cs sc;
    try (split; simpl; [done|by intros [x Hx]]).
  apply parseSpiked_spec_nilIffNotOk.
Defined.

End parse_more_examples.
